(** * Hyperion switch platform: reconciler and switch entity

    A shallow embedding of [homeassistant/components/hyperion/switch.py]
    and the properties of its two parts: the reconciler closure pair
    ([async_instances_to_entities], [async_instances_to_entities_raw]) set up
    by [async_setup_entry], and the [HyperionSwitch] entity.

    Python values are embedded as [pyval]; dictionaries as [gmap string _];
    the set [current_entities] as a [gset string].  Coroutines run to
    completion one after another (cooperative scheduling, one event at a
    time), so each is a state transformer over [State]; calls into the
    Hyperion client and into the host are recorded, with their results, in
    a trace. *)

From stdpp Require Import gmap strings list pretty.
From Stdlib Require Import Ascii.

#[local] Set Warnings "-clear-no-such-hyp".

(** ** Python values *)

(** The scalar JSON values that occur in instance dictionaries and in
    configuration data. *)
Inductive pyval :=
  | PNone
  | PBool (b : bool)
  | PInt (z : Z)
  | PStr (s : string).

#[global] Instance pyval_eq_dec : EqDecision pyval.
Proof. solve_decision. Defined.

(** Python truthiness: what [if v] / [not v] test. *)
Definition truthy (v : pyval) : bool :=
  match v with
  | PNone => false
  | PBool b => b
  | PInt z => negb (z =? 0)%Z
  | PStr s => negb (String.eqb s "")
  end.

(** [str(v)], as an f-string renders the value. *)
Definition py_str (v : pyval) : string :=
  match v with
  | PNone => "None"
  | PBool true => "True"
  | PBool false => "False"
  | PInt z => pretty z
  | PStr s => s
  end.

(** [c not in s] *)
Fixpoint free_of (c : ascii) (s : string) : bool :=
  match s with
  | EmptyString => true
  | String a s => negb (Ascii.eqb a c) && free_of c s
  end.

(** An instance dictionary, [Dict[str, Any]]. *)
Abbreviation Instance := (gmap string pyval).

(** The response handed to the update handler, [Dict[str, Any]].  The handler
    reads it only under [KEY_DATA], where the value is passed on as
    [List[Dict[str, Any]]]; an entry is represented by that list. *)
Abbreviation Response := (gmap string (list Instance)).

(** ** Exceptions and results *)

Inductive Exc :=
  | PlatformNotReady
  | KeyError (k : string).

Inductive Result (A : Type) :=
  | Normal (a : A)
  | Raise (e : Exc).
Arguments Normal {A} a.
Arguments Raise {A} e.

(** ** Constants imported by the module

    [CONF_*] come from [homeassistant.const], [KEY_*] from the [hyperion]
    client library, the others from the integration's [const] module.  None
    of them is defined in [switch.py]; the development is parametric in
    them.  [SIGNAL_INSTANCES_UPDATED] stands for the template applied with
    [.format]. *)
Class Constants := {
  CONF_HOST : string;
  CONF_PORT : string;
  CONF_TOKEN : string;
  KEY_DATA : string;
  KEY_INSTANCE : string;
  KEY_RUNNING : string;
  KEY_COMPONENTID_EXTERNAL_SOURCES : list string;
  KEY_COMPONENTID_LEDDEVICE : string;
  TYPE_HYPERION_SWITCH : string;
  SIGNAL_INSTANCES_UPDATED : string → string;
}.

(** ** Collaborators

    The Hyperion client and the host's data store, as functions of an
    external world [W].  A call may change the world; reads of the client's
    cached state do not. *)
Class Collaborators (W Client : Type) := {
  (** [async_create_connect_hyperion_client(host, port, instance=, token=)]:
      [None] for an argument left out; the result is [None] on failure. *)
  create_connect :
    W → pyval → pyval → option pyval → option pyval → option Client * W;
  (** [client.async_sysinfo_id()] *)
  sysinfo_id : W → Client → pyval * W;
  (** [client.is_on(components)], a read of the cached state *)
  client_is_on : W → Client → list string → bool;
  (** [client.has_loaded_state] *)
  client_has_loaded_state : W → Client → bool;
  (** [client.async_send_set_component(componentstate={component, state})] *)
  send_set_component : W → Client → string → bool → bool * W;
  (** [hass.data[DOMAIN][entry_id][CONF_ROOT_CLIENT].instances] *)
  root_client_instances : W → string → list Instance;
}.

Module ConfigEntry.
Record t := {
  data : gmap string pyval;
  options : gmap string pyval;
  unique_id : string;
  entry_id : string;
}.
End ConfigEntry.

(** Modelled from the spec: [get_hyperion_unique_id] lives in the package's
    [__init__] module.  The identifier is the concatenation of server id,
    instance id and the name (switch type prefix and component type), as in
    [abc_1_hyperion_switch_USB_CAPTURE]. *)
Definition get_hyperion_unique_id
    (server_id : string) (instance : pyval) (name : string) : string :=
  server_id +:+ "_" +:+ py_str instance +:+ "_" +:+ name.

Section Switch.
Context {W Client : Type} {collaborators : Collaborators W Client}
  {constants : Constants}.

(** ** The entity object

    Only [__init__] assigns the four attributes; no method writes them. *)
Record HyperionSwitch := {
  _unique_id : string;
  _name : string;
  _options : gmap string pyval;
  _client : Client;
}.

(** ** Observable calls *)
Inductive Event :=
  | EvGetRegistry
  | EvConnect (host port : pyval) (instance token : option pyval)
              (result : option Client)
  | EvSysinfoId (c : Client) (result : pyval)
  | EvAddEntities (new_entities : list HyperionSwitch)
  | EvSetComponent (c : Client) (component : string) (state : bool)
                   (result : bool)
  | EvWriteState (entity : string) (state : string)
  | EvDispatcherConnect (signal : string)
  | EvDispatcherSend (signal : string)
  | EvRegistryRemove (entity : string).

Record State := {
  world : W;
  trace : list Event;
  current_entities : gset string;
}.

(** ** The coroutine monad: state and exceptions *)
Definition M (A : Type) : Type := State → Result A * State.

Definition ret {A} (a : A) : M A := λ st, (Normal a, st).

Definition bind {A B} (m : M A) (f : A → M B) : M B := λ st,
  match m st with
  | (Normal a, st') => f a st'
  | (Raise e, st') => (Raise e, st')
  end.

Notation "'let*' x ':=' m 'in' k" := (bind m (λ x, k))
  (at level 10, x name, m at level 100, k at level 200, only parsing).

Definition raise {A} (e : Exc) : M A := λ st, (Raise e, st).

Definition emit (ev : Event) : M unit := λ st,
  (Normal tt,
   {| world := world st; trace := trace st ++ [ev];
      current_entities := current_entities st |}).

(** A call that changes the world and is recorded with its result. *)
Definition call {A} (f : W → A * W) (ev : A → Event) : M A := λ st,
  let '(a, w) := f (world st) in
  (Normal a,
   {| world := w; trace := trace st ++ [ev a];
      current_entities := current_entities st |}).

Definition read {A} (f : W → A) : M A := λ st, (Normal (f (world st)), st).

(** [for x in xs: body], with the loop's local variables threaded; a
    [continue] is a return from [body]. *)
Fixpoint for_each {A L} (body : A → L → M L) (xs : list A) (l : L) : M L :=
  match xs with
  | [] => ret l
  | x :: xs => let* l' := body x l in for_each body xs l'
  end.

(** [unique_id in current_entities] *)
Definition current_entities_mem (unique_id : string) : M bool := λ st,
  (Normal (bool_decide (unique_id ∈ current_entities st)), st).

(** [current_entities.add(unique_id)] *)
Definition current_entities_add (unique_id : string) : M unit := λ st,
  (Normal tt,
   {| world := world st; trace := trace st;
      current_entities := current_entities st ∪ {[unique_id]} |}).

(** [current_entities: Set[str] = set()] *)
Definition current_entities_new : M unit := λ st,
  (Normal tt,
   {| world := world st; trace := trace st; current_entities := ∅ |}).

(** [d[k]] *)
Definition getitem (d : gmap string pyval) (k : string) : M pyval :=
  match d !! k with
  | Some v => ret v
  | None => raise (KeyError k)
  end.

(** ** Host and client calls *)

Definition async_get_registry : M unit := emit EvGetRegistry.

Definition async_add_entities (new_entities : list HyperionSwitch) : M unit :=
  emit (EvAddEntities new_entities).

Definition async_dispatcher_connect (signal : string) : M unit :=
  emit (EvDispatcherConnect signal).

Definition async_create_connect_hyperion_client
    (host port : pyval) (instance token : option pyval) : M (option Client) :=
  call (λ w, create_connect w host port instance token)
       (EvConnect host port instance token).

Definition async_sysinfo_id (c : Client) : M pyval :=
  call (λ w, sysinfo_id w c) (EvSysinfoId c).

Definition async_send_set_component
    (c : Client) (component : string) (state : bool) : M bool :=
  call (λ w, send_set_component w c component state)
       (EvSetComponent c component state).

(** ** The reconciler: closures of [async_setup_entry]

    [config_entry], [host], [port] and [token] are the variables the two
    closures capture; [current_entities] is the captured set, kept in
    [State]. *)
Section Reconciler.
Variable config_entry : ConfigEntry.t.
Variables host port token : pyval.

(** The loop's local variables. *)
Record Locals := {
  entities_to_add : list HyperionSwitch;
  desired_unique_ids : gset string;
}.

(** [const.KEY_COMPONENTID_EXTERNAL_SOURCES + [const.KEY_COMPONENTID_LEDDEVICE]] *)
Definition components : list string :=
  KEY_COMPONENTID_EXTERNAL_SOURCES ++ [KEY_COMPONENTID_LEDDEVICE].

(** The identifier computed for an instance id and a component. *)
Definition switch_unique_id (instance_id : pyval) (component : string) : string :=
  let server_id := ConfigEntry.unique_id config_entry in
  get_hyperion_unique_id
    server_id instance_id (TYPE_HYPERION_SWITCH +:+ "_" +:+ component).

(** Body of the inner loop, [for component in ...]. *)
Definition component_body
    (instance_id : pyval) (component : string) (l : Locals) : M Locals :=
  let unique_id := switch_unique_id instance_id component in
  let l := {| entities_to_add := entities_to_add l;
              desired_unique_ids := desired_unique_ids l ∪ {[unique_id]} |} in
  let* known := current_entities_mem unique_id in
  if known then ret l
  else
    let* hyperion_client :=
      async_create_connect_hyperion_client
        host port (Some instance_id) (Some token) in
    match hyperion_client with
    | None => ret l
    | Some hyperion_client =>
        let* _ := current_entities_add unique_id in
        ret {| entities_to_add :=
                  entities_to_add l ++
                    [{| _unique_id := unique_id;
                        _name := component;
                        _options := ConfigEntry.options config_entry;
                        _client := hyperion_client |}];
                desired_unique_ids := desired_unique_ids l |}
    end.

(** [instance.get(const.KEY_INSTANCE)] *)
Definition get_instance_id (instance : Instance) : pyval :=
  default PNone (instance !! KEY_INSTANCE).

(** [instance.get(const.KEY_RUNNING, False)] *)
Definition get_running (instance : Instance) : pyval :=
  default (PBool false) (instance !! KEY_RUNNING).

(** The guard of the outer loop's [continue]. *)
Definition skipped (instance : Instance) : bool :=
  bool_decide (get_instance_id instance = PNone)
  || negb (truthy (get_running instance)).

(** Body of the outer loop, [for instance in instances]. *)
Definition instance_body (instance : Instance) (l : Locals) : M Locals :=
  let instance_id := get_instance_id instance in
  if skipped instance then ret l
  else for_each (component_body instance_id) components l.

Definition async_instances_to_entities_raw
    (instances : list Instance) : M unit :=
  let* registry := async_get_registry in
  let* l := for_each instance_body instances
              {| entities_to_add := []; desired_unique_ids := ∅ |} in
  async_add_entities (entities_to_add l).

(** [not response]: [None] or an empty dictionary. *)
Definition async_instances_to_entities (response : option Response) : M unit :=
  match response with
  | None => ret tt
  | Some response =>
      if bool_decide (response = ∅) then ret tt
      else match response !! KEY_DATA with
           | None => ret tt
           | Some instances => async_instances_to_entities_raw instances
           end
  end.

(** The update events delivered to the handler, one after another; an
    event's outcome does not stop the next one. *)
Definition instances_updated (events : list (option Response)) (st : State) : State :=
  foldl (λ st response, (async_instances_to_entities response st).2) st events.

(** The (instance id, component) pairs the two loops visit, in order. *)
Definition visited (instances : list Instance) : list (pyval * string) :=
  instance ← instances;
  if skipped instance then []
  else pair (get_instance_id instance) <$> components.

(** The inner loop's body and identifier, on a visited pair. *)
Definition pair_body (p : pyval * string) : Locals → M Locals :=
  component_body p.1 p.2.

Definition pair_id (p : pyval * string) : string :=
  switch_unique_id p.1 p.2.

(** The locals after [desired_unique_ids.add(unique_id)]. *)
Definition with_desired (l : Locals) (unique_id : string) : Locals :=
  {| entities_to_add := entities_to_add l;
     desired_unique_ids := desired_unique_ids l ∪ {[unique_id]} |}.

(** The entity constructed at a visit, [HyperionSwitch(unique_id, component,
    config_entry.options, hyperion_client)]. *)
Definition new_entity (p : pyval * string) (c : Client) : HyperionSwitch :=
  {| _unique_id := pair_id p; _name := p.2;
     _options := ConfigEntry.options config_entry; _client := c |}.

(** The connection attempt made at a visit, with its result. *)
Definition connect_event (p : pyval * string) (r : option Client) : Event :=
  EvConnect host port (Some p.1) (Some token) r.

(** The visits of one run as a relation: from a state, the events recorded,
    the entities created, and the state reached. *)
Inductive visits :
  list (pyval * string) → State → list Event → list HyperionSwitch → State → Prop :=
  | visits_nil st : visits [] st [] [] st
  | visits_known p ps st evs new st' :
      pair_id p ∈ current_entities st →
      visits ps st evs new st' →
      visits (p :: ps) st evs new st'
  | visits_failed p ps st w evs new st' :
      pair_id p ∉ current_entities st →
      create_connect (world st) host port (Some p.1) (Some token) = (None, w) →
      visits ps
        {| world := w; trace := trace st ++ [connect_event p None];
           current_entities := current_entities st |} evs new st' →
      visits (p :: ps) st (connect_event p None :: evs) new st'
  | visits_connected p ps st c w evs new st' :
      pair_id p ∉ current_entities st →
      create_connect (world st) host port (Some p.1) (Some token) = (Some c, w) →
      visits ps
        {| world := w; trace := trace st ++ [connect_event p (Some c)];
           current_entities := current_entities st ∪ {[pair_id p]} |} evs new st' →
      visits (p :: ps) st
        (connect_event p (Some c) :: evs) (new_entity p c :: new) st'.

(** What a visit did. *)
Inductive Outcome :=
  | AlreadyKnown
  | ConnectFailed
  | Connected (hyperion_client : Client).

(** The outcome of visiting [p] in state [st]: the membership test and the
    connection call of [component_body]. *)
Definition visit_outcome (p : pyval * string) (st : State) : Outcome :=
  if bool_decide (pair_id p ∈ current_entities st) then AlreadyKnown
  else
    match (create_connect (world st) host port (Some p.1) (Some token)).1 with
    | None => ConnectFailed
    | Some hyperion_client => Connected hyperion_client
    end.

(** The log of the visits: each visited pair with its outcome, the state
    moving on as [component_body] moves it. *)
Fixpoint visit_outcomes
    (ps : list (pyval * string)) (st : State) : list (pyval * string * Outcome) :=
  match ps with
  | [] => []
  | p :: ps =>
      (p, visit_outcome p st)
      :: visit_outcomes ps
           (pair_body p {| entities_to_add := []; desired_unique_ids := ∅ |} st).2
  end.

(** The log of one run of [async_instances_to_entities_raw]. *)
Definition diff_outcomes
    (instances : list Instance) (st : State) : list (pyval * string * Outcome) :=
  visit_outcomes (visited instances) (async_get_registry st).2.

(** The visit connected successfully for the identifier [unique_id]. *)
Definition connected_as (unique_id : string) (v : pyval * string * Outcome) : bool :=
  match v.2 with
  | Connected _ => bool_decide (pair_id v.1 = unique_id)
  | _ => false
  end.

(** How many times the two loops compute the identifier [unique_id] on a
    snapshot. *)
Definition times_computed (unique_id : string) (instances : list Instance) : nat :=
  length (List.filter (λ p, bool_decide (pair_id p = unique_id))
            (visited instances)).

End Reconciler.

Definition async_setup_entry (config_entry : ConfigEntry.t) : M bool :=
  let* host := getitem (ConfigEntry.data config_entry) CONF_HOST in
  let* port := getitem (ConfigEntry.data config_entry) CONF_PORT in
  let token := default PNone (ConfigEntry.data config_entry !! CONF_TOKEN) in
  let* _ := current_entities_new in
  let* instances :=
    read (λ w, root_client_instances w (ConfigEntry.entry_id config_entry)) in
  let* _ :=
    async_instances_to_entities_raw config_entry host port token instances in
  let* _ :=
    async_dispatcher_connect
      (SIGNAL_INSTANCES_UPDATED (ConfigEntry.entry_id config_entry)) in
  ret true.

(** [async_setup_platform]: the YAML entry point. *)
Definition async_setup_platform (config : gmap string pyval) : M unit :=
  let* host := getitem config CONF_HOST in
  let* port := getitem config CONF_PORT in
  let* hyperion_client := async_create_connect_hyperion_client host port None None in
  match hyperion_client with
  | None => raise PlatformNotReady
  | Some hyperion_client =>
      let* hyperion_id := async_sysinfo_id hyperion_client in
      if negb (truthy hyperion_id) then raise PlatformNotReady
      else ret tt
  end.

(** ** The switch entity *)

Definition name (self : HyperionSwitch) : string := _name self.

Definition unique_id (self : HyperionSwitch) : string := _unique_id self.

Definition should_poll (self : HyperionSwitch) : bool := false.

Definition available (self : HyperionSwitch) : M bool :=
  read (λ w, client_has_loaded_state w (_client self)).

Definition is_on (self : HyperionSwitch) : M bool :=
  read (λ w, client_is_on w (_client self) [_name self]).

(** Modelled from the spec: [async_write_ha_state] is inherited from the
    host's entity base class.  It re-renders the entity from the current
    cached state: unavailable when the client has no loaded state,
    otherwise on or off. *)
Definition async_write_ha_state (self : HyperionSwitch) : M unit :=
  let* a := available self in
  let* o := is_on self in
  emit (EvWriteState (unique_id self)
          (if a then if o then "on" else "off" else "unavailable")).

Definition async_turn_on (self : HyperionSwitch) : M unit :=
  let* on := is_on self in
  if negb on then
    let* ok := async_send_set_component (_client self) (_name self) true in
    if negb ok then ret tt else ret tt
  else ret tt.

Definition async_turn_off (self : HyperionSwitch) : M unit :=
  let* ok := async_send_set_component (_client self) (_name self) false in
  if negb ok then ret tt else ret tt.

Definition _update_components
    (self : HyperionSwitch) (payload : option (gmap string pyval)) : M unit :=
  async_write_ha_state self.

(** ** Observing states and traces *)

(** The state after one more recorded event. *)
Definition record_event (st : State) (ev : Event) : State :=
  {| world := world st; trace := trace st ++ [ev];
     current_entities := current_entities st |}.

(** The events of the removal path: a dispatcher broadcast (the only
    signal this module would ever send is [SIGNAL_INSTANCE_REMOVED]) and a
    deletion from the entity registry. *)
Definition is_removal (ev : Event) : bool :=
  match ev with
  | EvDispatcherSend _ | EvRegistryRemove _ => true
  | _ => false
  end.

(** A connection attempt that returned no client. *)
Definition connect_failed (ev : Event) : bool :=
  match ev with
  | EvConnect _ _ _ _ None => true
  | _ => false
  end.

(** The events recorded between two states of one run. *)
Definition events_since (st st' : State) : list Event :=
  drop (length (trace st)) (trace st').

(** The entities handed to [async_add_entities] by a list of events, in
    order. *)
Definition created (evs : list Event) : list HyperionSwitch :=
  ev ← evs; if ev is EvAddEntities new_entities then new_entities else [].

(** A connection attempt, whatever its result. *)
Definition is_connect (ev : Event) : bool :=
  match ev with
  | EvConnect _ _ _ _ _ => true
  | _ => false
  end.

(** From the trace position [base] on, [current_entities] holds exactly the
    identifiers of the entities handed to the host, each of them once. *)
Definition consistent (base : nat) (st : State) : Prop :=
  base ≤ length (trace st)
  ∧ current_entities st
    = list_to_set (_unique_id <$> created (drop base (trace st)))
  ∧ NoDup (_unique_id <$> created (drop base (trace st))).

End Switch.

(** ** A concrete setting

    Values for the imported constants (the switch type prefix as in the
    spec's scenario), and collaborators that follow a script: the outcomes
    of the next connection attempts (success once the script is used up),
    the client's cached state, and whether commands succeed. *)
Module Scripted.

Definition constants : Constants := {|
  CONF_HOST := "host";
  CONF_PORT := "port";
  CONF_TOKEN := "token";
  KEY_DATA := "data";
  KEY_INSTANCE := "instance";
  KEY_RUNNING := "running";
  KEY_COMPONENTID_EXTERNAL_SOURCES := ["BOBLIGHTSERVER"; "GRABBER"; "V4L"];
  KEY_COMPONENTID_LEDDEVICE := "LEDDEVICE";
  TYPE_HYPERION_SWITCH := "hyperion_switch";
  SIGNAL_INSTANCES_UPDATED := λ entry_id,
    "hyperion_instances_updated_signal." +:+ entry_id;
|}.

Record World := {
  connect_outcomes : list bool;
  next_client : nat;
  cached_on : bool;
  loaded : bool;
  command_ok : bool;
  server_id : pyval;
}.

Definition connect (w : World) : option nat * World :=
  let connected rest :=
    (Some (next_client w),
     {| connect_outcomes := rest; next_client := S (next_client w);
        cached_on := cached_on w; loaded := loaded w;
        command_ok := command_ok w; server_id := server_id w |}) in
  match connect_outcomes w with
  | [] => connected []
  | true :: rest => connected rest
  | false :: rest =>
      (None,
       {| connect_outcomes := rest; next_client := next_client w;
          cached_on := cached_on w; loaded := loaded w;
          command_ok := command_ok w; server_id := server_id w |})
  end.

Definition collaborators : Collaborators World nat := {|
  create_connect w _ _ _ _ := connect w;
  sysinfo_id w _ := (server_id w, w);
  client_is_on w _ _ := cached_on w;
  client_has_loaded_state w _ := loaded w;
  send_set_component w _ _ state :=
    (command_ok w,
     if command_ok w then
       {| connect_outcomes := connect_outcomes w;
          next_client := next_client w; cached_on := state;
          loaded := loaded w; command_ok := true;
          server_id := server_id w |}
     else w);
  root_client_instances _ _ := [];
|}.

Definition a_world (outcomes : list bool) (on ok : bool) (id : pyval) : World :=
  {| connect_outcomes := outcomes; next_client := 0; cached_on := on;
     loaded := true; command_ok := ok; server_id := id |}.

Definition a_state (w : World) : @State World nat :=
  {| world := w; trace := []; current_entities := ∅ |}.

Definition config_entry : ConfigEntry.t :=
  {| ConfigEntry.data := {[ "host" := PStr "10.0.0.2"; "port" := PInt 19444 ]};
     ConfigEntry.options := ∅;
     ConfigEntry.unique_id := "abc";
     ConfigEntry.entry_id := "entry" |}.

Definition host : pyval := PStr "10.0.0.2".
Definition port : pyval := PInt 19444.
Definition token : pyval := PNone.

(** One running instance, number 1. *)
Definition instance_1 : Instance :=
  {[ "instance" := PInt 1; "running" := PBool true ]}.

(** The same instance, no longer running. *)
Definition instance_1_stopped : Instance :=
  {[ "instance" := PInt 1; "running" := PBool false ]}.

(** An entry without an instance id. *)
Definition instance_no_id : Instance := {[ "running" := PBool true ]}.

Definition a_switch : @HyperionSwitch nat :=
  {| _unique_id := "abc_1_hyperion_switch_LEDDEVICE"; _name := "LEDDEVICE";
     _options := ∅; _client := 3 |}.

(** The same collaborators with the root client reporting instance 1. *)
Definition collaborators_with_root : Collaborators World nat := {|
  create_connect := create_connect (Collaborators := collaborators);
  sysinfo_id := sysinfo_id (Collaborators := collaborators);
  client_is_on := client_is_on (Collaborators := collaborators);
  client_has_loaded_state :=
    client_has_loaded_state (Collaborators := collaborators);
  send_set_component := send_set_component (Collaborators := collaborators);
  root_client_instances _ _ := [instance_1];
|}.

(** An entry without host and port. *)
Definition config_entry_no_host : ConfigEntry.t :=
  {| ConfigEntry.data := ∅;
     ConfigEntry.options := ∅;
     ConfigEntry.unique_id := "abc";
     ConfigEntry.entry_id := "entry" |}.

End Scripted.

(** * Properties *)

(** ** Identifiers *)

Section Identifiers.
Context {constants : Constants}.

Lemma pretty_N_go_free_of (x : N) s :
  free_of "_"%char s = true → free_of "_"%char (pretty_N_go x s) = true.
Proof.
  revert s. induction (N.lt_wf_0 x) as [x _ IH]; intros s Hs.
  destruct (decide (x = 0)%N) as [->|Hx]; [by rewrite pretty_N_go_0|].
  rewrite pretty_N_go_step by lia. apply IH.
  - apply N.div_lt; lia.
  - simpl. rewrite Hs, andb_true_r.
    unfold pretty_N_char. by repeat case_match.
Qed.

(** The decimal rendering of an integer has no underscore. *)
Lemma pretty_Z_free_of (z : Z) : free_of "_"%char (pretty z) = true.
Proof.
  assert (∀ x : N, free_of "_"%char (pretty x) = true) as HN.
  { intros x. unfold pretty, pretty_N. case_decide; [done|].
    by apply pretty_N_go_free_of. }
  destruct z as [|x|x]; [done|apply (HN (N.pos x))|].
  change (pretty (Z.neg x)) with (String "-" (pretty (N.pos x))).
  simpl. apply HN.
Qed.

(** Two strings without underscore, each followed by an underscore and a
    rest, agree only if both parts agree. *)
Lemma underscore_split a b x y :
  free_of "_"%char a = true → free_of "_"%char b = true →
  a +:+ String "_" x = b +:+ String "_" y → a = b ∧ x = y.
Proof.
  revert b. induction a as [|ch a IH]; intros [|ch' b] Ha Hb Heq;
    simpl in *.
  - by injection Heq.
  - injection Heq as <- _. by rewrite Ascii.eqb_refl in Hb.
  - injection Heq as -> _. by rewrite Ascii.eqb_refl in Ha.
  - injection Heq as -> Heq.
    apply andb_prop in Ha as [_ Ha]. apply andb_prop in Hb as [_ Hb].
    destruct (IH b Ha Hb Heq) as [-> ->]. done.
Qed.

(** C5: for a fixed server id, the identifiers of two distinct (instance
    id, component) pairs, with integer instance ids, are distinct. *)
Theorem switch_unique_id_injective
    (config_entry : ConfigEntry.t) (i1 i2 : Z) (c1 c2 : string) :
  (i1, c1) ≠ (i2, c2) →
  switch_unique_id config_entry (PInt i1) c1
  ≠ switch_unique_id config_entry (PInt i2) c2.
Proof.
  intros Hne Heq. apply Hne.
  unfold switch_unique_id, get_hyperion_unique_id in Heq. simpl in Heq.
  apply (inj (String.app _)) in Heq.
  change ("_" +:+ ?s) with (String "_" s) in Heq.
  injection Heq as Heq.
  apply underscore_split in Heq as [Hi Hc]; [|apply pretty_Z_free_of..].
  apply (inj pretty) in Hi. apply (inj (String.app _)) in Hc.
  change ("_" +:+ ?s) with (String "_" s) in Hc.
  injection Hc as Hc. by subst.
Qed.

End Identifiers.

Section SwitchFacts.
Context {W Client : Type} {collaborators : Collaborators W Client}
  {constants : Constants}.

Abbreviation HyperionSwitch := (@HyperionSwitch Client).
Abbreviation Event := (@Event Client).
Abbreviation State := (@State W Client).
Abbreviation Locals := (@Locals Client).
Abbreviation M := (@M W Client).

Lemma events_since_app (st st' : State) evs :
  trace st' = trace st ++ evs → events_since st st' = evs.
Proof. unfold events_since. intros ->. by rewrite drop_app_length. Qed.

Lemma for_each_app {A L} (body : A → L → M L) xs ys l st :
  for_each body (xs ++ ys) l st
  = bind (for_each body xs l) (for_each body ys) st.
Proof.
  revert l st. induction xs as [|x xs IH]; intros l st; simpl; [reflexivity|].
  unfold bind. destruct (body x l st) as [[l'|e] st1]; [|reflexivity].
  rewrite IH. reflexivity.
Qed.

Lemma for_each_fmap {A B L} (g : A → B) (body : B → L → M L) xs l st :
  for_each body (g <$> xs) l st = for_each (λ x, body (g x)) xs l st.
Proof.
  revert l st. induction xs as [|x xs IH]; intros l st; [done|].
  rewrite fmap_cons. simpl.
  unfold bind. destruct (body (g x) l st) as [[l'|e] st1]; [|done].
  by rewrite IH.
Qed.

Section ReconcilerFacts.
Variable config_entry : ConfigEntry.t.
Variables host port token : pyval.

Abbreviation switch_unique_id := (switch_unique_id config_entry).
Abbreviation component_body := (component_body config_entry host port token).
Abbreviation instance_body := (instance_body config_entry host port token).
Abbreviation async_instances_to_entities_raw :=
  (async_instances_to_entities_raw config_entry host port token).
Abbreviation async_instances_to_entities :=
  (async_instances_to_entities config_entry host port token).
Abbreviation visited := (visited (constants:=constants)).
Abbreviation pair_body := (pair_body config_entry host port token).
Abbreviation pair_id := (pair_id config_entry).
Abbreviation new_entity := (new_entity config_entry).
Abbreviation connect_event := (connect_event host port token).
Abbreviation visits := (visits config_entry host port token).
Abbreviation visit_outcomes := (visit_outcomes config_entry host port token).
Abbreviation diff_outcomes := (diff_outcomes config_entry host port token).
Abbreviation connected_as := (connected_as config_entry).

Lemma for_each_visited instances l st :
  for_each instance_body instances l st
  = for_each pair_body (visited instances) l st.
Proof.
  revert l st. induction instances as [|i rest IH]; intros l st; [done|].
  unfold visited. rewrite bind_cons. fold (visited rest).
  rewrite for_each_app. simpl. unfold bind.
  unfold instance_body at 1. destruct (skipped i); simpl.
  - apply IH.
  - rewrite for_each_fmap. unfold pair_body at 1. simpl.
    destruct (for_each _ components l st) as [[l'|e] st1]; [apply IH|done].
Qed.

Lemma pair_body_known p l st :
  pair_id p ∈ current_entities st →
  pair_body p l st = (Normal (with_desired l (pair_id p)), st).
Proof.
  intros Hin. unfold pair_body, component_body, bind, current_entities_mem.
  by rewrite bool_decide_eq_true_2.
Qed.

Lemma pair_body_failed p l st w :
  pair_id p ∉ current_entities st →
  create_connect (world st) host port (Some p.1) (Some token) = (None, w) →
  pair_body p l st
  = (Normal (with_desired l (pair_id p)),
     {| world := w; trace := trace st ++ [connect_event p None];
        current_entities := current_entities st |}).
Proof.
  intros Hin Hc. unfold pair_body, component_body, bind, current_entities_mem.
  rewrite bool_decide_eq_false_2 by done.
  unfold async_create_connect_hyperion_client, call. by rewrite Hc.
Qed.

Lemma pair_body_connected p l st c w :
  pair_id p ∉ current_entities st →
  create_connect (world st) host port (Some p.1) (Some token) = (Some c, w) →
  pair_body p l st
  = (Normal {| entities_to_add := entities_to_add l ++ [new_entity p c];
               desired_unique_ids := desired_unique_ids l ∪ {[pair_id p]} |},
     {| world := w; trace := trace st ++ [connect_event p (Some c)];
        current_entities := current_entities st ∪ {[pair_id p]} |}).
Proof.
  intros Hin Hc. unfold pair_body, component_body, bind, current_entities_mem.
  rewrite bool_decide_eq_false_2 by done.
  unfold async_create_connect_hyperion_client, call. by rewrite Hc.
Qed.

Lemma normal_locals_eq (es : list HyperionSwitch) ds ds' (st : State) :
  ds ≡ ds' →
  (Normal {| entities_to_add := es; desired_unique_ids := ds |}, st)
  = (Normal {| entities_to_add := es; desired_unique_ids := ds' |}, st).
Proof. by intros ->%leibniz_equiv. Qed.

(** The loops never raise, and run as [visits] describes. *)
Lemma for_each_visits ps l st :
  ∃ evs new st',
    visits ps st evs new st' ∧
    for_each pair_body ps l st
    = (Normal {| entities_to_add := entities_to_add l ++ new;
                 desired_unique_ids :=
                   desired_unique_ids l ∪ list_to_set (pair_id <$> ps) |},
       st').
Proof.
  revert l st. induction ps as [|p ps IH]; intros l st.
  - exists [], [], st. split; [constructor|].
    simpl. unfold ret. destruct l as [es ds]; simpl.
    rewrite app_nil_r. apply normal_locals_eq. set_solver.
  - simpl. unfold bind.
    destruct (decide (pair_id p ∈ current_entities st)) as [Hin|Hin].
    + rewrite (pair_body_known p l st Hin).
      destruct (IH (with_desired l (pair_id p)) st) as (evs & new & st' & Hv & ->).
      exists evs, new, st'. split; [by constructor|].
      simpl. apply normal_locals_eq. set_solver.
    + destruct (create_connect (world st) host port (Some p.1) (Some token))
        as [[c|] w] eqn:Hc.
      * rewrite (pair_body_connected p l st c w Hin Hc).
        edestruct IH as (evs & new & st' & Hv & ->).
        exists (connect_event p (Some c) :: evs), (new_entity p c :: new), st'.
        split; [by eapply visits_connected|].
        simpl. rewrite <-app_assoc. simpl. apply normal_locals_eq. set_solver.
      * rewrite (pair_body_failed p l st w Hin Hc).
        edestruct IH as (evs & new & st' & Hv & ->).
        exists (connect_event p None :: evs), new, st'.
        split; [by eapply visits_failed|].
        simpl. apply normal_locals_eq. set_solver.
Qed.

Lemma visits_trace ps st evs new st' :
  visits ps st evs new st' → trace st' = trace st ++ evs.
Proof.
  induction 1; simpl in *; [by rewrite app_nil_r|done|..];
    by rewrite IHvisits, <-app_assoc.
Qed.

Lemma visits_current ps st evs new st' :
  visits ps st evs new st' →
  current_entities st'
  = current_entities st ∪ list_to_set (_unique_id <$> new).
Proof.
  induction 1; simpl in *; rewrite ?IHvisits; set_solver.
Qed.

Lemma visits_fresh ps st evs new st' :
  visits ps st evs new st' →
  ∀ e, e ∈ new → _unique_id e ∉ current_entities st.
Proof.
  induction 1; simpl in *; intros e He; [set_solver|by auto|by auto|].
  apply elem_of_cons in He as [->|He]; [done|].
  apply IHvisits in He. set_solver.
Qed.

Lemma visits_NoDup ps st evs new st' :
  visits ps st evs new st' → NoDup (_unique_id <$> new).
Proof.
  induction 1 as [| |?|p ps st c w evs new st' Hin Hc Hv IH];
    simpl in *; [constructor|done|done|].
  constructor; [|done].
  intros (e & Heq & He)%list_elem_of_fmap.
  apply (visits_fresh _ _ _ _ _ Hv) in He. simpl in He. set_solver.
Qed.

Lemma visits_subseteq ps st evs new st' :
  visits ps st evs new st' → current_entities st ⊆ current_entities st'.
Proof. intros ->%visits_current. set_solver. Qed.

Lemma visits_events ps st evs new st' :
  visits ps st evs new st' →
  ∀ ev, ev ∈ evs → ∃ p r, p ∈ ps ∧ ev = connect_event p r.
Proof.
  induction 1; intros ev Hev.
  - by apply elem_of_nil in Hev.
  - destruct (IHvisits ev Hev) as (q & r & ? & ?). exists q, r. set_solver.
  - apply elem_of_cons in Hev as [->|Hev]; [exists p, None; set_solver|].
    destruct (IHvisits ev Hev) as (q & r & ? & ?). exists q, r. set_solver.
  - apply elem_of_cons in Hev as [->|Hev]; [exists p, (Some c); set_solver|].
    destruct (IHvisits ev Hev) as (q & r & ? & ?). exists q, r. set_solver.
Qed.

(** Every created entity comes from a successful connection of this run. *)
Lemma visits_new ps st evs new st' :
  visits ps st evs new st' →
  ∀ e, e ∈ new →
    ∃ p c, p ∈ ps ∧ e = new_entity p c ∧ connect_event p (Some c) ∈ evs.
Proof.
  induction 1; intros e He.
  - by apply elem_of_nil in He.
  - destruct (IHvisits e He) as (q & c & ? & ? & ?). exists q, c. set_solver.
  - destruct (IHvisits e He) as (q & c & ? & ? & ?). exists q, c. set_solver.
  - apply elem_of_cons in He as [->|He]; [exists p, c; set_solver|].
    destruct (IHvisits e He) as (q & c' & ? & ? & ?). exists q, c'. set_solver.
Qed.

(** Every created entity comes from a visit logged as connected. *)
Lemma visits_new_outcome ps st evs new st' :
  visits ps st evs new st' →
  ∀ e, e ∈ new →
    ∃ p c, e = new_entity p c ∧ (p, Connected c) ∈ visit_outcomes ps st.
Proof.
  induction 1 as [|q ps st evs new st' Hin Hv IH
                  |q ps st w evs new st' Hin Hc Hv IH
                  |q ps st c w evs new st' Hin Hc Hv IH]; intros e He; simpl.
  - by apply elem_of_nil in He.
  - rewrite (pair_body_known _ _ _ Hin). simpl.
    destruct (IH e He) as (p & c & ? & ?). exists p, c. set_solver.
  - rewrite (pair_body_failed _ _ _ _ Hin Hc). simpl.
    destruct (IH e He) as (p & c & ? & ?). exists p, c. set_solver.
  - rewrite (pair_body_connected _ _ _ _ _ Hin Hc). simpl.
    apply elem_of_cons in He as [->|He].
    + exists q, c. split; [done|]. apply elem_of_cons. left.
      unfold visit_outcome. rewrite bool_decide_eq_false_2 by done.
      by rewrite Hc.
    + destruct (IH e He) as (p & c' & ? & ?). exists p, c'. set_solver.
Qed.

(** After the run every visited identifier is known, unless a connection
    attempt made for it failed. *)
Lemma visits_covered ps st evs new st' :
  visits ps st evs new st' →
  ∀ p, p ∈ ps → pair_id p ∈ current_entities st' ∨ connect_event p None ∈ evs.
Proof.
  induction 1 as [|q ps st evs new st' Hin Hv IH
                  |q ps st w evs new st' Hin Hc Hv IH
                  |q ps st c w evs new st' Hin Hc Hv IH]; intros p Hp.
  - by apply elem_of_nil in Hp.
  - apply elem_of_cons in Hp as [->|Hp]; [|by auto].
    left. by apply (visits_subseteq _ _ _ _ _ Hv).
  - apply elem_of_cons in Hp as [->|Hp]; [right; set_solver|].
    destruct (IH p Hp); [by left|right; set_solver].
  - apply elem_of_cons in Hp as [->|Hp].
    + left. apply (visits_subseteq _ _ _ _ _ Hv). simpl. set_solver.
    + destruct (IH p Hp); [by left|right; set_solver].
Qed.

(** An identifier that is visited while unknown gets a connection attempt. *)
Lemma visits_attempted ps st evs new st' :
  visits ps st evs new st' →
  ∀ p, p ∈ ps → pair_id p ∉ current_entities st →
    ∃ q r, q ∈ ps ∧ pair_id q = pair_id p ∧ connect_event q r ∈ evs.
Proof.
  induction 1 as [|q ps st evs new st' Hin Hv IH
                  |q ps st w evs new st' Hin Hc Hv IH
                  |q ps st c w evs new st' Hin Hc Hv IH]; intros p Hp Hnew.
  - by apply elem_of_nil in Hp.
  - apply elem_of_cons in Hp as [->|Hp]; [done|].
    destruct (IH p Hp Hnew) as (q' & r & ? & ? & ?). exists q', r. set_solver.
  - destruct (decide (pair_id q = pair_id p)) as [Heq|Hne].
    { exists q, None. set_solver. }
    apply elem_of_cons in Hp as [->|Hp]; [done|].
    destruct (IH p Hp Hnew) as (q' & r & ? & ? & ?). exists q', r. set_solver.
  - destruct (decide (pair_id q = pair_id p)) as [Heq|Hne].
    { exists q, (Some c). set_solver. }
    apply elem_of_cons in Hp as [->|Hp]; [done|].
    destruct (IH p Hp) as (q' & r & ? & ? & ?); [simpl; set_solver|].
    exists q', r. set_solver.
Qed.

(** When every visited identifier is already known, the run does nothing. *)
Lemma visits_all_known ps st evs new st' :
  visits ps st evs new st' →
  (∀ p, p ∈ ps → pair_id p ∈ current_entities st) →
  evs = [] ∧ new = [] ∧ st' = st.
Proof.
  induction 1; intros Hknown; [done|..].
  - apply IHvisits. intros q Hq. apply Hknown. set_solver.
  - destruct H. apply Hknown. set_solver.
  - destruct H. apply Hknown. set_solver.
Qed.

(** [async_instances_to_entities_raw] never raises: it fetches the registry,
    makes its visits, and hands the created entities to the host. *)
Lemma raw_visits instances st :
  ∃ evs new st',
    visits (visited instances) (record_event st EvGetRegistry) evs new st' ∧
    async_instances_to_entities_raw instances st
    = (Normal tt, record_event st' (EvAddEntities new)).
Proof.
  unfold async_instances_to_entities_raw.
  unfold bind at 1. unfold async_get_registry, emit at 1.
  fold (record_event st EvGetRegistry).
  unfold bind. rewrite for_each_visited.
  edestruct for_each_visits as (evs & new & st' & Hv & ->).
  exists evs, new, st'. split; [exact Hv|]. reflexivity.
Qed.

(** The events of a whole run. *)
Lemma raw_events instances st r st' :
  async_instances_to_entities_raw instances st = (r, st') →
  ∃ evs new st1,
    visits (visited instances) (record_event st EvGetRegistry) evs new st1 ∧
    r = Normal tt ∧
    st' = record_event st1 (EvAddEntities new) ∧
    events_since st st' = EvGetRegistry :: evs ++ [EvAddEntities new].
Proof.
  destruct (raw_visits instances st) as (evs & new & st1 & Hv & ->).
  intros [= <- <-]. exists evs, new, st1. repeat split; [done|].
  apply events_since_app. simpl.
  rewrite (visits_trace _ _ _ _ _ Hv). simpl. by rewrite <-!app_assoc.
Qed.

(** What the update handler does: nothing, or the diff on the data. *)
Lemma handler_cases response st :
  async_instances_to_entities response st = (Normal tt, st)
  ∨ ∃ r instances,
      response = Some r ∧ r ≠ ∅ ∧ r !! KEY_DATA = Some instances ∧
      async_instances_to_entities response st
      = async_instances_to_entities_raw instances st.
Proof.
  destruct response as [r|]; [|by left]. simpl.
  case_bool_decide as Hr; [by left|].
  destruct (r !! KEY_DATA) as [instances|] eqn:Hd; [|by left].
  right. by exists r, instances.
Qed.

(** One run only adds to [current_entities], and records only the registry
    fetch, connection attempts and the hand-over of the new entities. *)
Lemma raw_grows instances st r st' :
  async_instances_to_entities_raw instances st = (r, st') →
  current_entities st ⊆ current_entities st'
  ∧ ∃ evs, trace st' = trace st ++ evs
           ∧ Forall (λ ev, is_removal ev = false) evs.
Proof.
  intros (evs & new & st1 & Hv & -> & -> & _)%raw_events. split.
  - apply visits_subseteq in Hv. simpl in *. done.
  - exists (EvGetRegistry :: evs ++ [EvAddEntities new]). split.
    + simpl. rewrite (visits_trace _ _ _ _ _ Hv). simpl.
      by rewrite <-!app_assoc.
    + constructor; [done|]. apply Forall_app. split; [|by constructor].
      apply Forall_forall. intros ev Hev.
      by destruct (visits_events _ _ _ _ _ Hv ev Hev) as (q & c & _ & ->).
Qed.

(** C1: running the diff on a snapshot from an empty [current_entities],
    with every connection attempt of that run successful, and then running
    it again on the same snapshot: the second run attempts no connection
    and passes no entity to [async_add_entities] (its only events are the
    registry fetch and [async_add_entities([])], and the state is otherwise
    unchanged); and the entities created by the first run carry pairwise
    distinct identifiers, so no identifier is created twice. *)
Theorem second_diff_creates_nothing instances (st : State) r1 st1 :
  current_entities st = ∅ →
  async_instances_to_entities_raw instances st = (r1, st1) →
  Forall (λ ev, connect_failed ev = false) (events_since st st1) →
  async_instances_to_entities_raw instances st1
  = (Normal tt,
     {| world := world st1;
        trace := trace st1 ++ [EvGetRegistry; EvAddEntities []];
        current_entities := current_entities st1 |})
  ∧ (∀ es, EvAddEntities es ∈ events_since st st1 → NoDup (_unique_id <$> es)).
Proof.
  intros _ (evs & new & st0 & Hv & -> & -> & Hevs)%raw_events Hok. split.
  - destruct (raw_visits instances (record_event st0 (EvAddEntities new)))
      as (evs2 & new2 & st2 & Hv2 & ->).
    apply visits_all_known in Hv2 as (-> & -> & ->).
    { unfold record_event. simpl. by rewrite <-app_assoc. }
    intros p Hp. simpl.
    destruct (visits_covered _ _ _ _ _ Hv p Hp) as [Hin|Hfail]; [done|].
    rewrite Hevs, Forall_forall in Hok.
    by discriminate (Hok (connect_event p None)); set_solver.
  - intros es. rewrite Hevs.
    intros [|[Hes|Hes%list_elem_of_singleton]%elem_of_app]%elem_of_cons;
      [done| |].
    + by destruct (visits_events _ _ _ _ _ Hv _ Hes) as (q & c & _ & ?).
    + injection Hes as ->. by eapply visits_NoDup.
Qed.

(** C2: over every sequence of update events [current_entities] never
    shrinks, so an identifier once created stays known whatever later
    snapshots report, and no removal signal is broadcast and no registry
    deletion is requested. *)
Theorem removal_path_inert events (st : State) :
  let st' := instances_updated config_entry host port token events st in
  current_entities st ⊆ current_entities st'
  ∧ ∃ evs, trace st' = trace st ++ evs
           ∧ Forall (λ ev, is_removal ev = false) evs.
Proof.
  revert st. induction events as [|response events IH]; intros st; simpl.
  { split; [done|]. exists []. by rewrite app_nil_r. }
  destruct (async_instances_to_entities response st) as [r st1] eqn:Hrun.
  assert (current_entities st ⊆ current_entities st1
          ∧ ∃ evs, trace st1 = trace st ++ evs
                   ∧ Forall (λ ev, is_removal ev = false) evs)
    as (Hsub & evs1 & Htr & Hevs1).
  { destruct (handler_cases response st) as [Heq|(? & instances & _ & _ & _ & Heq)].
    - rewrite Heq in Hrun. injection Hrun as <- <-.
      split; [done|]. exists []. by rewrite app_nil_r.
    - rewrite Heq in Hrun. by eapply raw_grows. }
  simpl. destruct (IH st1) as (Hsub' & evs2 & Htr' & Hevs2). split.
  - set_solver.
  - exists (evs1 ++ evs2). rewrite Htr', Htr, <-app_assoc.
    split; [done|]. by apply Forall_app.
Qed.

Lemma elem_of_visited p instances :
  p ∈ visited instances ↔
  ∃ instance, instance ∈ instances ∧ skipped instance = false
              ∧ p.1 = get_instance_id instance ∧ p.2 ∈ components.
Proof.
  unfold visited. rewrite list_elem_of_bind. split.
  - intros (instance & Hp & Hin). exists instance.
    destruct (skipped instance); [by apply elem_of_nil in Hp|].
    apply list_elem_of_fmap in Hp as (c & -> & Hc). done.
  - intros (instance & Hin & Hs & H1 & H2). exists instance.
    rewrite Hs. split; [|done]. apply list_elem_of_fmap.
    exists p.2. split; [|done]. destruct p; simpl in *. by subst.
Qed.

(** What a run adds: an identifier becomes known only together with an
    entity handed to [async_add_entities], and every such entity carries
    the handle a successful connection of this run returned for its
    instance. *)
Lemma raw_additions instances (st : State) r st1 :
  async_instances_to_entities_raw instances st = (r, st1) →
  (∀ u, u ∈ current_entities st1 →
     u ∈ current_entities st
     ∨ ∃ es e, EvAddEntities es ∈ events_since st st1 ∧ e ∈ es
               ∧ _unique_id e = u)
  ∧ (∀ es e, EvAddEntities es ∈ events_since st st1 → e ∈ es →
       _name e ∈ components
       ∧ ∃ j, _unique_id e = switch_unique_id j (_name e)
              ∧ EvConnect host port (Some j) (Some token) (Some (_client e))
                ∈ events_since st st1).
Proof.
  intros (evs & new & st0 & Hv & -> & -> & Hevs)%raw_events.
  rewrite Hevs. split.
  - intros u. simpl. rewrite (visits_current _ _ _ _ _ Hv). simpl.
    intros [?|Hin]%elem_of_union; [by left|right].
    apply elem_of_list_to_set, list_elem_of_fmap in Hin as (e & -> & He).
    exists new, e. set_solver.
  - intros es e
      [|[Hes|Hes%list_elem_of_singleton]%elem_of_app]%elem_of_cons He;
      [done| |].
    { by destruct (visits_events _ _ _ _ _ Hv _ Hes) as (q & c & _ & ?). }
    injection Hes as ->.
    destruct (visits_new _ _ _ _ _ Hv e He) as (p & cl & Hp & -> & Hev).
    apply elem_of_visited in Hp as (instance & _ & _ & _ & Hc).
    split; [done|]. exists p.1. split; [done|]. set_solver.
Qed.

(** A failed connection for an unknown identifier.  (1) At the visit:
    the identifier is recorded as desired, but it is not added to
    [current_entities] and no entity is appended; nothing is raised.
    (2) Over the run: the run returns normally, and when no visit of the
    identifier in this run connected successfully, the identifier is still
    unknown at the end of the run and no entity with it is handed to
    [async_add_entities].  (3) On the next update: a run whose snapshot
    visits the identifier while it is unknown makes a connection attempt
    for it again. *)
Lemma failed_connection_facts :
  (∀ i c (l : Locals) (st : State) w,
     switch_unique_id i c ∉ current_entities st →
     create_connect (world st) host port (Some i) (Some token) = (None, w) →
     component_body i c l st
     = (Normal {| entities_to_add := entities_to_add l;
                  desired_unique_ids :=
                    desired_unique_ids l ∪ {[switch_unique_id i c]} |},
        {| world := w;
           trace := trace st ++ [EvConnect host port (Some i) (Some token) None];
           current_entities := current_entities st |}))
  ∧ (∀ instances (st : State) r st1,
       async_instances_to_entities_raw instances st = (r, st1) →
       r = Normal tt
       ∧ (∀ u,
            u ∉ current_entities st →
            Forall (λ v, connected_as u v = false) (diff_outcomes instances st) →
            (u ∉ current_entities st1)
            ∧ (∀ es e, EvAddEntities es ∈ events_since st st1 → e ∈ es →
                 _unique_id e ≠ u)))
  ∧ (∀ instances (st : State) r st1 instance c,
       async_instances_to_entities_raw instances st = (r, st1) →
       instance ∈ instances → skipped instance = false → c ∈ components →
       switch_unique_id (get_instance_id instance) c ∉ current_entities st →
       ∃ j res c',
         EvConnect host port (Some j) (Some token) res ∈ events_since st st1
         ∧ c' ∈ components
         ∧ switch_unique_id j c'
           = switch_unique_id (get_instance_id instance) c).
Proof.
  split; [|split].
  - intros i c l st w Hin Hc. by apply (pair_body_failed (i, c)).
  - intros instances st r st1
      (evs & new & st0 & Hv & -> & -> & Hevs)%raw_events.
    split; [done|]. intros u Hu Hfail.
    assert (∀ e, e ∈ new → _unique_id e ≠ u) as Hnew.
    { intros e He Heq.
      destruct (visits_new_outcome _ _ _ _ _ Hv e He) as (p & cl & -> & Hp).
      rewrite Forall_forall in Hfail. specialize (Hfail _ Hp).
      unfold connected_as in Hfail. simpl in Hfail.
      by apply bool_decide_eq_false in Hfail. }
    split.
    + simpl. rewrite (visits_current _ _ _ _ _ Hv). simpl.
      intros [?|Hin]%elem_of_union; [done|].
      apply elem_of_list_to_set, list_elem_of_fmap in Hin as (e & Heq & He).
      by apply (Hnew e).
    + intros es e. rewrite Hevs.
      intros [|[Hes|Hes%list_elem_of_singleton]%elem_of_app]%elem_of_cons;
        [done| |].
      * by destruct (visits_events _ _ _ _ _ Hv _ Hes) as (q & c & _ & ?).
      * injection Hes as ->. apply Hnew.
  - intros instances st r st1 instance c
      (evs & new & st0 & Hv & -> & -> & Hevs)%raw_events Hin Hs Hc Hu.
    destruct (visits_attempted _ _ _ _ _ Hv (get_instance_id instance, c))
      as (q & res & Hq & Hid & Hev); [|done|].
    { apply elem_of_visited. by exists instance. }
    apply elem_of_visited in Hq as (? & _ & _ & _ & Hqc).
    exists q.1, res, q.2. split; [|done]. rewrite Hevs. set_solver.
Qed.

Lemma filter_at_most_one {A} (P : A → bool) (l : list A) x y :
  length (List.filter P l) ≤ 1 →
  x ∈ l → y ∈ l → P x = true → P y = true → x = y.
Proof.
  induction l as [|a l IH]; intros Hlen Hx Hy Px Py.
  { by apply elem_of_nil in Hx. }
  simpl in Hlen. destruct (P a) eqn:Pa.
  - assert (∀ z, z ∈ l → P z = true → False) as Hnone.
    { intros z Hz Pz.
      assert (In z (List.filter P l)) as Hin
        by (apply List.filter_In; split; [by apply list_elem_of_In|done]).
      destruct (List.filter P l); simpl in *; [done|lia]. }
    apply elem_of_cons in Hx as [->|Hx]; [|by destruct (Hnone x)].
    apply elem_of_cons in Hy as [->|Hy]; [done|by destruct (Hnone y)].
  - apply elem_of_cons in Hx as [->|Hx]; [congruence|].
    apply elem_of_cons in Hy as [->|Hy]; [congruence|].
    by apply IH.
Qed.

Lemma visit_outcomes_times ps (st : State) u :
  length (List.filter (λ v : pyval * string * Outcome,
                         bool_decide (pair_id v.1 = u))
            (visit_outcomes ps st))
  = length (List.filter (λ p, bool_decide (pair_id p = u)) ps).
Proof.
  revert st. induction ps as [|p ps IH]; intros st; [done|].
  simpl. destruct (bool_decide (pair_id p = u)); simpl; by rewrite IH.
Qed.

(** A visit logged as failed found the identifier unknown, in the state
    the run started from as well. *)
Lemma visits_failed_unknown ps st evs new st' p :
  visits ps st evs new st' →
  (p, ConnectFailed) ∈ visit_outcomes ps st →
  pair_id p ∉ current_entities st.
Proof.
  induction 1 as [|q ps st evs new st' Hin Hv IH
                  |q ps st w evs new st' Hin Hc Hv IH
                  |q ps st c w evs new st' Hin Hc Hv IH]; simpl.
  - by intros ?%elem_of_nil.
  - rewrite (pair_body_known _ _ _ Hin). simpl.
    intros [Heq|Hp]%elem_of_cons; [|by apply IH].
    injection Heq as -> Ho. unfold visit_outcome in Ho.
    by rewrite bool_decide_eq_true_2 in Ho.
  - rewrite (pair_body_failed _ _ _ _ Hin Hc). simpl.
    intros [Heq|Hp]%elem_of_cons; [by injection Heq as -> _|].
    by apply IH in Hp.
  - rewrite (pair_body_connected _ _ _ _ _ Hin Hc). simpl.
    intros [Heq|Hp]%elem_of_cons.
    + injection Heq as -> Ho. unfold visit_outcome in Ho.
      rewrite bool_decide_eq_false_2 in Ho by done. by rewrite Hc in Ho.
    + apply IH in Hp. simpl in Hp. set_solver.
Qed.


Lemma raw_visited_eq instances instances' (st : State) :
  visited instances = visited instances' →
  async_instances_to_entities_raw instances st
  = async_instances_to_entities_raw instances' st.
Proof.
  intros Heq. unfold async_instances_to_entities_raw, bind.
  destruct (async_get_registry st) as [[[]|e] st0]; [|done].
  by rewrite !for_each_visited, Heq.
Qed.

(** C10: the update handler returns at once, leaving the state as it is (no
    connection attempted, no entity added, [current_entities] unchanged),
    when the response is [None], empty, or has no data key; and in the diff
    an instance entry without an instance id is passed over just as one
    that is not running is: the loop body leaves locals and state as they
    are, and the run is the run on the snapshot without that entry. *)
Theorem handler_and_loop_skip :
  (∀ (response : option Response) (st : State),
     response = None ∨ response = Some ∅
     ∨ (∃ r, response = Some r ∧ r !! KEY_DATA = None) →
     async_instances_to_entities response st = (Normal tt, st))
  ∧ (∀ (instance : Instance) (l : Locals) (st : State) before after,
       instance !! KEY_INSTANCE = None ∨ instance !! KEY_INSTANCE = Some PNone
       ∨ truthy (default (PBool false) (instance !! KEY_RUNNING)) = false →
       instance_body instance l st = (Normal l, st)
       ∧ async_instances_to_entities_raw (before ++ instance :: after) st
         = async_instances_to_entities_raw (before ++ after) st).
Proof.
  split.
  - intros response st [->|[->|(r & -> & Hr)]]; [done|done|].
    simpl. case_bool_decide; [done|]. by rewrite Hr.
  - intros instance l st before after Hskip.
    assert (skipped instance = true) as Hs.
    { unfold skipped, get_instance_id, get_running.
      destruct Hskip as [Hk|[Hk|Hk]]; rewrite Hk; [done|done|].
      by rewrite orb_true_r. }
    split.
    + unfold instance_body. by rewrite Hs.
    + apply raw_visited_eq. unfold visited.
      rewrite !bind_app, bind_cons. by rewrite Hs.
Qed.

(** ** Further properties of the diff *)

Lemma created_app (evs1 evs2 : list Event) :
  created (evs1 ++ evs2) = created evs1 ++ created evs2.
Proof. unfold created. apply bind_app. Qed.

Lemma created_connects (evs : list Event) :
  Forall (λ ev, is_connect ev = true) evs → created evs = [].
Proof.
  induction 1 as [|ev evs Hev _ IH]; [done|].
  change (ev :: evs) with ([ev] ++ evs). rewrite created_app, IH.
  by destruct ev.
Qed.

Lemma visits_connects ps st evs new st' :
  visits ps st evs new st' → Forall (λ ev, is_connect ev = true) evs.
Proof.
  intros Hv. apply Forall_forall. intros ev Hev.
  by destruct (visits_events _ _ _ _ _ Hv ev Hev) as (q & r & _ & ->).
Qed.

Lemma created_run (evs : list Event) new :
  Forall (λ ev, is_connect ev = true) evs →
  created (EvGetRegistry :: evs ++ [EvAddEntities new]) = new.
Proof.
  intros Hevs. change (EvGetRegistry :: evs ++ [EvAddEntities new])
    with ([EvGetRegistry] ++ evs ++ [EvAddEntities new]).
  rewrite !created_app, (created_connects evs Hevs). simpl.
  apply app_nil_r.
Qed.

Lemma visits_length ps st evs new st' :
  visits ps st evs new st' →
  length evs ≤ length ps
  ∧ length new + length (List.filter connect_failed evs) = length evs.
Proof. induction 1; simpl in *; lia. Qed.

Lemma visited_app instances instances' :
  visited (instances ++ instances') = visited instances ++ visited instances'.
Proof. unfold visited. apply bind_app. Qed.

Lemma visited_length instances :
  length (visited instances)
  = length components
    * length (List.filter (λ instance, negb (skipped instance)) instances).
Proof.
  induction instances as [|instance rest IH]; [simpl; lia|].
  change (instance :: rest) with ([instance] ++ rest) at 1.
  rewrite visited_app, length_app, IH. unfold visited at 1.
  rewrite bind_cons, app_nil_r. simpl.
  destruct (skipped instance); simpl; [lia|].
  rewrite length_fmap. lia.
Qed.

(** The visits are determined by the state they start from. *)
Lemma visits_det ps st evs new st' evs2 new2 st2 :
  visits ps st evs new st' → visits ps st evs2 new2 st2 →
  evs = evs2 ∧ new = new2 ∧ st' = st2.
Proof.
  intros Hv. revert evs2 new2 st2.
  induction Hv as [|q ps st evs new st' Hin Hv IH
                   |q ps st w evs new st' Hin Hc Hv IH
                   |q ps st c w evs new st' Hin Hc Hv IH];
    intros evs2 new2 st2 Hv2; try clear Hv; inversion Hv2; subst; clear Hv2;
    try done; try congruence.
  - by apply IH.
  - assert (w0 = w) as -> by congruence.
    match goal with H : visits _ _ _ _ _ |- _ =>
      by destruct (IH _ _ _ H) as (-> & -> & ->) end.
  - assert (c0 = c ∧ w0 = w) as [-> ->] by (split; congruence).
    match goal with H : visits _ _ _ _ _ |- _ =>
      by destruct (IH _ _ _ H) as (-> & -> & ->) end.
Qed.

(** The visits read the world and [current_entities] only: the trace the
    run starts with does not matter. *)
Lemma visits_same_store ps st evs new st' (st2 : State) :
  visits ps st evs new st' →
  world st2 = world st → current_entities st2 = current_entities st →
  ∃ st2', visits ps st2 evs new st2'
          ∧ world st2' = world st'
          ∧ current_entities st2' = current_entities st'.
Proof.
  intros Hv. revert st2.
  induction Hv as [|q ps st evs new st' Hin Hv IH
                   |q ps st w evs new st' Hin Hc Hv IH
                   |q ps st c w evs new st' Hin Hc Hv IH];
    intros st2 Hw Hcur.
  - exists st2. split; [constructor|done].
  - destruct (IH st2 Hw Hcur) as (st2' & ? & ? & ?). exists st2'.
    split; [|done]. apply visits_known; [by rewrite Hcur|done].
  - edestruct (IH {| world := w;
                     trace := trace st2 ++ [connect_event q None];
                     current_entities := current_entities st2 |})
      as (st2' & ? & ? & ?); [done|done|].
    exists st2'. split; [|done].
    eapply visits_failed; [by rewrite Hcur|by rewrite Hw|done].
  - edestruct (IH {| world := w;
                     trace := trace st2 ++ [connect_event q (Some c)];
                     current_entities := current_entities st2 ∪ {[pair_id q]} |})
      as (st2' & ? & ? & ?); [done|by simpl; rewrite Hcur|].
    exists st2'. split; [|done].
    eapply visits_connected; [by rewrite Hcur|by rewrite Hw|done].
Qed.

Lemma visits_app ps1 ps2 st evs new st' :
  visits (ps1 ++ ps2) st evs new st' →
  ∃ evs1 new1 mid evs2 new2,
    visits ps1 st evs1 new1 mid ∧ visits ps2 mid evs2 new2 st'
    ∧ evs = evs1 ++ evs2 ∧ new = new1 ++ new2.
Proof.
  revert st evs new. induction ps1 as [|q ps1 IH]; intros st evs new Hv.
  - exists [], [], st, evs, new. split; [constructor|done].
  - simpl in Hv. inversion Hv; subst; clear Hv;
      match goal with H : visits _ _ _ _ _ |- _ =>
        destruct (IH _ _ _ H) as (e1 & n1 & mid & e2 & n2 & ? & ? & -> & ->)
      end.
    + exists e1, n1, mid, e2, n2. split; [by apply visits_known|done].
    + exists (connect_event q None :: e1), n1, mid, e2, n2.
      split; [by eapply visits_failed|done].
    + exists (connect_event q (Some c) :: e1), (new_entity q c :: n1), mid, e2, n2.
      split; [by eapply visits_connected|done].
Qed.

Lemma filter_connects (evs : list Event) :
  Forall (λ ev, is_connect ev = true) evs → List.filter is_connect evs = evs.
Proof.
  induction 1 as [|ev evs Hev _ IH]; simpl; [done|]. by rewrite Hev, IH.
Qed.

(** X1: a run of the diff never raises, and what it records is the
    registry fetch, then connection attempts only, then one call of
    [async_add_entities] (also when nothing was created).  Every attempt is
    made with the entry's host, port and token for the id of a snapshot
    entry that has an id and is running; there are at most as many attempts
    as components times such entries, and every attempt either failed or
    gave exactly one of the entities handed over. *)
Theorem diff_run_shape instances (st : State) :
  (async_instances_to_entities_raw instances st).1 = Normal tt
  ∧ ∃ attempts new,
      events_since st (async_instances_to_entities_raw instances st).2
      = EvGetRegistry :: attempts ++ [EvAddEntities new]
      ∧ Forall (λ ev, ∃ instance result,
                  instance ∈ instances ∧ skipped instance = false
                  ∧ ev = EvConnect host port (Some (get_instance_id instance))
                           (Some token) result) attempts
      ∧ length attempts
        ≤ length components
          * length (List.filter (λ instance, negb (skipped instance)) instances)
      ∧ length new + length (List.filter connect_failed attempts)
        = length attempts.
Proof.
  destruct (async_instances_to_entities_raw instances st) as [r st1] eqn:Hrun.
  apply raw_events in Hrun as (evs & new & st0 & Hv & -> & -> & Hevs).
  split; [done|]. exists evs, new. split; [done|]. split.
  { apply Forall_forall. intros ev Hev.
    destruct (visits_events _ _ _ _ _ Hv ev Hev) as (q & res & Hq & ->).
    apply elem_of_visited in Hq as (instance & Hin & Hs & Hid & _).
    exists instance, res. unfold connect_event. by rewrite Hid. }
  destruct (visits_length _ _ _ _ _ Hv) as [Hle Hsum].
  by rewrite <-visited_length.
Qed.

(** X2: every entity a run hands to [async_add_entities] is named after one
    of the components, carries the entry's options, and has the identifier
    derived from the server id, the id of a snapshot entry that is running,
    and the switch type and its name; its client is the one a connection
    attempt of this run returned for that instance with the entry's host,
    port and token; and its identifier was unknown before the run and is
    known after it. *)
Theorem created_entities_wellformed instances (st : State) r st1 e :
  async_instances_to_entities_raw instances st = (r, st1) →
  e ∈ created (events_since st st1) →
  name e ∈ components
  ∧ _options e = ConfigEntry.options config_entry
  ∧ (∃ instance,
       instance ∈ instances ∧ skipped instance = false
       ∧ unique_id e
         = get_hyperion_unique_id (ConfigEntry.unique_id config_entry)
             (get_instance_id instance)
             (TYPE_HYPERION_SWITCH +:+ "_" +:+ name e)
       ∧ EvConnect host port (Some (get_instance_id instance)) (Some token)
           (Some (_client e)) ∈ events_since st st1)
  ∧ (unique_id e ∉ current_entities st)
  ∧ (unique_id e ∈ current_entities st1).
Proof.
  intros (evs & new & st0 & Hv & -> & -> & Hevs)%raw_events.
  rewrite Hevs, created_run by (by eapply visits_connects). intros He.
  destruct (visits_new _ _ _ _ _ Hv e He) as (p & cl & Hp & -> & Hev).
  apply elem_of_visited in Hp as (instance & Hin & Hs & Hid & Hc).
  split; [done|]. split; [done|]. split.
  { exists instance. split; [done|]. split; [done|]. rewrite <-Hid.
    split; [done|]. set_solver. }
  split.
  - apply (visits_fresh _ _ _ _ _ Hv) in He. by simpl in He.
  - simpl. rewrite (visits_current _ _ _ _ _ Hv).
    apply elem_of_union_r, elem_of_list_to_set, list_elem_of_fmap.
    by exists (new_entity p cl).
Qed.

Lemma visits_retry_bound ps sa evs1 new1 sa' :
  visits ps sa evs1 new1 sa' →
  ∀ sb evs2 new2 sb',
    visits ps sb evs2 new2 sb' →
    current_entities sa' ⊆ current_entities sb →
    length evs2 ≤ length (List.filter connect_failed evs1).
Proof.
  induction 1 as [|q ps st evs new st' Hin Hv IH
                  |q ps st w evs new st' Hin Hc Hv IH
                  |q ps st c w evs new st' Hin Hc Hv IH];
    intros sb evs2 new2 sb' Hv2 Hsub.
  - inversion Hv2. simpl. lia.
  - assert (pair_id q ∈ current_entities sb).
    { apply Hsub. by apply (visits_subseteq _ _ _ _ _ Hv). }
    inversion Hv2; subst; [|done..]. by eapply IH.
  - simpl.
    inversion Hv2; subst; clear Hv2;
      match goal with H : visits _ _ _ _ _ |- _ =>
        eapply IH in H; [|try done] end; simpl in *; try lia; set_solver.
  - assert (pair_id q ∈ current_entities sb).
    { apply Hsub. apply (visits_subseteq _ _ _ _ _ Hv). simpl. set_solver. }
    simpl. inversion Hv2; subst; [|done..]. by eapply IH.
Qed.

(** X3: running the diff on a snapshot again, at once or after any updates
    that forgot none of the identifiers known after the first run, makes at
    most as many connection attempts as failed in the first run. *)
Theorem rerun_retries_only_failures instances (st st2 : State) :
  current_entities (async_instances_to_entities_raw instances st).2
    ⊆ current_entities st2 →
  length (List.filter is_connect
            (events_since st2 (async_instances_to_entities_raw instances st2).2))
  ≤ length (List.filter connect_failed
              (events_since st (async_instances_to_entities_raw instances st).2)).
Proof.
  destruct (async_instances_to_entities_raw instances st) as [r st1] eqn:Hrun.
  destruct (async_instances_to_entities_raw instances st2) as [r' st3] eqn:Hrun2.
  simpl.
  apply raw_events in Hrun as (evs & new & st0 & Hv & -> & -> & Hevs).
  apply raw_events in Hrun2 as (evs2 & new2 & st0' & Hv2 & -> & -> & Hevs2).
  rewrite Hevs, Hevs2. simpl. intros Hsub.
  rewrite !List.filter_app. simpl. rewrite !app_nil_r.
  rewrite (filter_connects evs2) by (by eapply visits_connects).
  by eapply visits_retry_bound.
Qed.

(** X4: one run on two snapshots put together does what two runs, one on
    each, do one after the other: the same connection attempts with the
    same results, the same entities in the same order, and the same world
    and [current_entities] at the end. *)
Theorem diff_concat instances instances' (st : State) :
  let sa := (async_instances_to_entities_raw instances st).2 in
  let sb := (async_instances_to_entities_raw instances' sa).2 in
  let sc := (async_instances_to_entities_raw (instances ++ instances') st).2 in
  world sc = world sb
  ∧ current_entities sc = current_entities sb
  ∧ created (events_since st sc) = created (events_since st sb)
  ∧ List.filter is_connect (events_since st sc)
    = List.filter is_connect (events_since st sb).
Proof.
  intros sa sb sc. subst sa sb sc.
  destruct (raw_visits instances st) as (e1 & n1 & s1 & Hv1 & ->). simpl.
  destruct (raw_visits instances' (record_event s1 (EvAddEntities n1)))
    as (e2 & n2 & s2 & Hv2 & ->). simpl.
  destruct (raw_visits (instances ++ instances') st)
    as (e3 & n3 & s3 & Hv3 & ->). simpl.
  rewrite visited_app in Hv3.
  apply visits_app in Hv3
    as (e1' & n1' & mid & e2' & n2' & Hva & Hvb & -> & ->).
  destruct (visits_det _ _ _ _ _ _ _ _ Hva Hv1) as (-> & -> & ->).
  destruct (visits_same_store _ _ _ _ _
              (record_event (record_event s1 (EvAddEntities n1)) EvGetRegistry)
              Hvb eq_refl eq_refl) as (s2' & Hvb' & Hw & Hcur).
  destruct (visits_det _ _ _ _ _ _ _ _ Hvb' Hv2) as (-> & -> & ->).
  simpl. split; [done|]. split; [done|].
  assert (Forall (λ ev, is_connect ev = true) e1) as He1
    by (by eapply visits_connects).
  assert (Forall (λ ev, is_connect ev = true) e2) as He2
    by (by eapply visits_connects).
  rewrite (events_since_app st (record_event s3 (EvAddEntities (n1 ++ n2)))
             (EvGetRegistry :: (e1 ++ e2) ++ [EvAddEntities (n1 ++ n2)])).
  2:{ simpl. rewrite (visits_trace _ _ _ _ _ Hvb), (visits_trace _ _ _ _ _ Hv1).
      simpl. by rewrite <-!app_assoc. }
  rewrite (events_since_app st (record_event s2 (EvAddEntities n2))
             ((EvGetRegistry :: e1 ++ [EvAddEntities n1])
              ++ (EvGetRegistry :: e2 ++ [EvAddEntities n2]))).
  2:{ simpl. rewrite (visits_trace _ _ _ _ _ Hv2). simpl.
      rewrite (visits_trace _ _ _ _ _ Hv1). simpl. by rewrite <-!app_assoc. }
  split.
  - rewrite created_app, !created_run; [done|done|done|by apply Forall_app].
  - rewrite !List.filter_app. simpl. rewrite !List.filter_app. simpl.
    by rewrite !app_nil_r.
Qed.

(** X5: on a snapshot without any entry that has an id and is running (an
    empty one, or all instances stopped), the run attempts no connection
    and creates nothing: it fetches the registry, calls
    [async_add_entities] with an empty list, and leaves the world and
    [current_entities] as they were. *)
Theorem nothing_running_nothing_done instances (st : State) :
  Forall (λ instance, skipped instance = true) instances →
  async_instances_to_entities_raw instances st
  = (Normal tt,
     {| world := world st;
        trace := trace st ++ [EvGetRegistry; EvAddEntities []];
        current_entities := current_entities st |}).
Proof.
  intros Hall.
  assert (visited instances = []) as Hnone.
  { induction Hall as [|instance rest Hs _ IH]; [done|].
    change (instance :: rest) with ([instance] ++ rest).
    rewrite visited_app, IH, app_nil_r. unfold visited.
    rewrite bind_cons, Hs. done. }
  destruct (raw_visits instances st) as (evs & new & st1 & Hv & ->).
  rewrite Hnone in Hv. inversion Hv; subst.
  unfold record_event. simpl. by rewrite <-app_assoc.
Qed.

(** One run keeps [current_entities] consistent with the entities handed
    over. *)
Lemma raw_consistent base instances (st : State) r st1 :
  consistent base st →
  async_instances_to_entities_raw instances st = (r, st1) →
  consistent base st1.
Proof.
  intros (Hbase & Hcur & Hnd)
    (evs & new & st0 & Hv & -> & -> & Hevs)%raw_events.
  assert (created (drop base (trace (record_event st0 (EvAddEntities new))))
          = created (drop base (trace st)) ++ new) as Hcreated.
  { simpl. rewrite (visits_trace _ _ _ _ _ Hv). simpl.
    rewrite <-!app_assoc. rewrite drop_app_le by done.
    rewrite created_app. f_equal.
    change ([EvGetRegistry] ++ evs ++ [EvAddEntities new])
      with (EvGetRegistry :: evs ++ [EvAddEntities new]).
    apply created_run. by eapply visits_connects. }
  unfold consistent. rewrite Hcreated, fmap_app. split; [|split].
  - simpl. rewrite (visits_trace _ _ _ _ _ Hv). simpl.
    rewrite !length_app. simpl. lia.
  - simpl. rewrite (visits_current _ _ _ _ _ Hv). simpl.
    rewrite Hcur, list_to_set_app_L. done.
  - apply NoDup_app. split; [done|]. split; [|by eapply visits_NoDup].
    intros u Hu (e & -> & He)%list_elem_of_fmap.
    apply (visits_fresh _ _ _ _ _ Hv) in He. simpl in He.
    apply He. rewrite Hcur. by apply elem_of_list_to_set.
Qed.

Lemma handler_consistent base response (st : State) :
  consistent base st →
  consistent base (async_instances_to_entities response st).2.
Proof.
  intros Hc.
  destruct (handler_cases response st) as [->|(? & instances & _ & _ & _ & ->)];
    [done|].
  destruct (async_instances_to_entities_raw instances st) as [r st1] eqn:Hrun.
  by eapply raw_consistent.
Qed.

Lemma instances_updated_consistent base events (st : State) :
  consistent base st →
  consistent base (instances_updated config_entry host port token events st).
Proof.
  revert st. induction events as [|response events IH]; intros st Hc; [done|].
  simpl. apply IH. by apply handler_consistent.
Qed.

End ReconcilerFacts.

(** ** The switch entity *)

(** C3: [async_turn_on] issues no set-component call when the client's
    cached state reports the component on (the state, trace included, is
    unchanged), and exactly one, with state [True], when it reports it
    off. *)
Theorem turn_on_calls (self : HyperionSwitch) (st : State) :
  (client_is_on (world st) (_client self) [_name self] = true →
   async_turn_on self st = (Normal tt, st))
  ∧ (client_is_on (world st) (_client self) [_name self] = false →
     ∃ ok w,
       send_set_component (world st) (_client self) (_name self) true = (ok, w)
       ∧ async_turn_on self st
         = (Normal tt,
            {| world := w;
               trace := trace st ++
                 [EvSetComponent (_client self) (_name self) true ok];
               current_entities := current_entities st |})).
Proof.
  unfold async_turn_on, bind, is_on, read. split; intros ->; simpl; [done|].
  unfold async_send_set_component, call.
  destruct (send_set_component _ _ _ _) as [ok w]. exists ok, w.
  split; [done|]. by destruct ok.
Qed.

(** C4: [async_turn_off] issues exactly one set-component call, with state
    [False], whatever the cached state is. *)
Theorem turn_off_calls (self : HyperionSwitch) (st : State) :
  ∃ ok w,
    send_set_component (world st) (_client self) (_name self) false = (ok, w)
    ∧ async_turn_off self st
      = (Normal tt,
         {| world := w;
            trace := trace st ++
              [EvSetComponent (_client self) (_name self) false ok];
            current_entities := current_entities st |}).
Proof.
  unfold async_turn_off, bind, async_send_set_component, call.
  destruct (send_set_component _ _ _ _) as [ok w]. exists ok, w.
  split; [done|]. by destruct ok.
Qed.

(** C7: when the client's set-component command reports failure,
    [async_turn_off] and [async_turn_on] return normally.  The entity has no
    attribute that a method writes, and the state afterwards differs only
    by the client's call, where one was made ([async_turn_on] makes none
    when the cache reports the component on): no state is written to the
    host and [current_entities] is unchanged. *)
Theorem command_failure_is_silent (self : HyperionSwitch) (st : State) w :
  (send_set_component (world st) (_client self) (_name self) false = (false, w) →
   async_turn_off self st
   = (Normal tt,
      {| world := w;
         trace := trace st ++
           [EvSetComponent (_client self) (_name self) false false];
         current_entities := current_entities st |}))
  ∧ (send_set_component (world st) (_client self) (_name self) true = (false, w) →
     async_turn_on self st
     = (Normal tt,
        if client_is_on (world st) (_client self) [_name self] then st
        else
          {| world := w;
             trace := trace st ++
               [EvSetComponent (_client self) (_name self) true false];
             current_entities := current_entities st |})).
Proof.
  split.
  - intros Hsend. unfold async_turn_off, bind, async_send_set_component, call.
    by rewrite Hsend.
  - intros Hsend.
    unfold async_turn_on, bind, is_on, read, async_send_set_component, call.
    simpl. destruct (client_is_on _ _ _); simpl; [done|]. by rewrite Hsend.
Qed.

(** C8: [_update_components] does the same for every payload, the absent
    one included: it returns normally, having written to the host the state
    rendered from the client's cached state. *)
Theorem update_ignores_payload
    (self : HyperionSwitch) (payload : option (gmap string pyval)) (st : State) :
  _update_components self payload st = _update_components self None st
  ∧ _update_components self payload st
    = (Normal tt,
       record_event st
         (EvWriteState (_unique_id self)
            (if client_has_loaded_state (world st) (_client self)
             then if client_is_on (world st) (_client self) [_name self]
                  then "on" else "off"
             else "unavailable"))).
Proof. split; reflexivity. Qed.

(** C9, amended: for a configuration that holds host and port,
    [async_setup_platform] raises [PlatformNotReady] when the connection
    fails, and when it succeeds but the server id is falsy; otherwise it
    returns normally. *)
Theorem setup_platform_not_ready (config : gmap string pyval) host port (st : State) :
  config !! CONF_HOST = Some host →
  config !! CONF_PORT = Some port →
  ∃ hyperion_client w,
    create_connect (world st) host port None None = (hyperion_client, w)
    ∧ match hyperion_client with
      | None => (async_setup_platform config st).1 = Raise PlatformNotReady
      | Some c =>
          ∃ hyperion_id w',
            sysinfo_id w c = (hyperion_id, w')
            ∧ (async_setup_platform config st).1
              = if truthy hyperion_id then Normal tt
                else Raise PlatformNotReady
      end.
Proof.
  intros Hhost Hport. unfold async_setup_platform, bind, getitem.
  rewrite Hhost, Hport. simpl.
  unfold async_create_connect_hyperion_client, call.
  destruct (create_connect _ _ _ _ _) as [[c|] w]; simpl.
  - exists (Some c), w. split; [done|].
    unfold async_sysinfo_id, call. simpl.
    destruct (sysinfo_id w c) as [hyperion_id w']. exists hyperion_id, w'.
    split; [done|]. by destruct (truthy hyperion_id).
  - by exists None, w.
Qed.

(** ** Setting up *)

Lemma consistent_record_event base (st : State) ev :
  created [ev] = [] → consistent base st → consistent base (record_event st ev).
Proof.
  intros Hev (Hbase & Hcur & Hnd). unfold consistent. simpl.
  rewrite drop_app_le by done. rewrite created_app, Hev, app_nil_r.
  rewrite length_app. simpl. split; [lia|done].
Qed.

(** X6: for an entry whose data hold host and port (a token is optional),
    [async_setup_entry] returns [True] whatever the connections do, and its
    last recorded call is the subscription to the entry's update signal.
    The identifiers known before are forgotten: after setup, and after any
    sequence of update events that follows, [current_entities] holds
    exactly the identifiers of the entities handed to [async_add_entities]
    since setup began, and no identifier was handed over twice. *)
Theorem setup_entry_lifetime config_entry host port events (st : State) :
  ConfigEntry.data config_entry !! CONF_HOST = Some host →
  ConfigEntry.data config_entry !! CONF_PORT = Some port →
  let token := default PNone (ConfigEntry.data config_entry !! CONF_TOKEN) in
  let st1 := (async_setup_entry config_entry st).2 in
  let st2 := instances_updated config_entry host port token events st1 in
  (async_setup_entry config_entry st).1 = Normal true
  ∧ last (trace st1)
    = Some (EvDispatcherConnect
              (SIGNAL_INSTANCES_UPDATED (ConfigEntry.entry_id config_entry)))
  ∧ consistent (length (trace st)) st1
  ∧ consistent (length (trace st)) st2.
Proof.
  intros Hhost Hport token st1 st2.
  assert ((async_setup_entry config_entry st).1 = Normal true
          ∧ last (trace st1)
            = Some (EvDispatcherConnect
                      (SIGNAL_INSTANCES_UPDATED
                         (ConfigEntry.entry_id config_entry)))
          ∧ consistent (length (trace st)) st1) as (Hr & Hlast & Hc).
  { subst st1 st2. unfold async_setup_entry, bind, getitem.
    rewrite Hhost, Hport. simpl. unfold current_entities_new, read. simpl.
    destruct (async_instances_to_entities_raw _ _ _ _ _ _) as [r sr] eqn:Hrun.
    assert (consistent (length (trace st)) sr) as Hsr.
    { eapply raw_consistent; [|exact Hrun]. unfold consistent. simpl.
      rewrite drop_all. split; [done|]. split; [done|constructor]. }
    apply raw_events in Hrun as (? & ? & ? & _ & -> & _ & _). simpl.
    split; [done|]. split; [apply last_snoc|].
    by apply (consistent_record_event _ sr). }
  split; [done|]. split; [done|]. split; [done|].
  by apply instances_updated_consistent.
Qed.

(** X7: an entry whose data lack the host, or hold the host but lack the
    port, makes [async_setup_entry] raise [KeyError] for that key before
    anything is done: nothing is recorded, [current_entities] is not reset,
    and no subscription is made. *)
Theorem setup_entry_missing_key config_entry (st : State) :
  (ConfigEntry.data config_entry !! CONF_HOST = None →
   async_setup_entry config_entry st = (Raise (KeyError CONF_HOST), st))
  ∧ (is_Some (ConfigEntry.data config_entry !! CONF_HOST) →
     ConfigEntry.data config_entry !! CONF_PORT = None →
     async_setup_entry config_entry st = (Raise (KeyError CONF_PORT), st)).
Proof.
  unfold async_setup_entry, bind, getitem. split.
  - by intros ->.
  - by intros [h ->] ->.
Qed.

(** X8: the YAML setup creates nothing, for every configuration and
    whatever the server answers: it hands no entity to the host and leaves
    [current_entities] alone.  It connects at most once, to the configured
    host and port and without instance or token, and beside that
    connection it records only the server id query. *)
Theorem setup_platform_creates_nothing (config : gmap string pyval) (st : State) :
  let st' := (async_setup_platform config st).2 in
  current_entities st' = current_entities st
  ∧ created (events_since st st') = []
  ∧ length (List.filter is_connect (events_since st st')) ≤ 1
  ∧ Forall (λ ev,
       match ev with
       | EvConnect h p i t _ =>
           config !! CONF_HOST = Some h ∧ config !! CONF_PORT = Some p
           ∧ i = None ∧ t = None
       | EvSysinfoId _ _ => True
       | _ => False
       end) (events_since st st').
Proof.
  unfold async_setup_platform, bind, getitem.
  assert (∀ s : State, events_since s s = []) as Hnil.
  { intros s. apply events_since_app. by rewrite app_nil_r. }
  destruct (config !! CONF_HOST) as [h|] eqn:Hh; simpl;
    [|rewrite Hnil; simpl; repeat split; [lia|constructor]].
  destruct (config !! CONF_PORT) as [p|] eqn:Hp; simpl;
    [|rewrite Hnil; simpl; repeat split; [lia|constructor]].
  unfold async_create_connect_hyperion_client, call.
  destruct (create_connect _ _ _ _ _) as [[c|] w]; simpl.
  - unfold async_sysinfo_id, call. simpl.
    destruct (sysinfo_id w c) as [hyperion_id w'].
    assert (events_since st
              {| world := w';
                 trace := (trace st ++ [EvConnect h p None None (Some c)])
                          ++ [EvSysinfoId c hyperion_id];
                 current_entities := current_entities st |}
            = [EvConnect h p None None (Some c); EvSysinfoId c hyperion_id])
      as Hev.
    { apply events_since_app. simpl. by rewrite <-app_assoc. }
    destruct (truthy hyperion_id); simpl; rewrite Hev; simpl;
      (split; [done|]; split; [done|]; split; [lia|]);
      repeat constructor; done.
  - rewrite (events_since_app st _ [EvConnect h p None None None]) by done.
    simpl. split; [done|]. split; [done|]. split; [lia|].
    repeat constructor; done.
Qed.

(** X9: a configuration without the host, or with the host but without the
    port, makes [async_setup_platform] raise [KeyError] for that key
    before any connection is attempted; the state is unchanged. *)
Theorem setup_platform_missing_key (config : gmap string pyval) (st : State) :
  (config !! CONF_HOST = None →
   async_setup_platform config st = (Raise (KeyError CONF_HOST), st))
  ∧ (is_Some (config !! CONF_HOST) → config !! CONF_PORT = None →
     async_setup_platform config st = (Raise (KeyError CONF_PORT), st)).
Proof.
  unfold async_setup_platform, bind, getitem. split.
  - by intros ->.
  - by intros [h ->] ->.
Qed.

End SwitchFacts.

(** * The properties at work in the scripted setting *)

Section ScriptedRuns.
Import Scripted.
#[local] Existing Instance Scripted.constants.
#[local] Existing Instance Scripted.collaborators.

Abbreviation diff := (async_instances_to_entities_raw config_entry host port token).

(** The identifier format of the spec's scenario. *)
Example identifier_format :
  switch_unique_id config_entry (PInt 1) "LEDDEVICE"
  = "abc_1_hyperion_switch_LEDDEVICE".
Proof. reflexivity. Qed.

(** The first diff creates one switch per component of the running
    instance. *)
Example first_diff_creates_four :
  let st1 := (diff [instance_1] (a_state (a_world [] false true PNone))).2 in
  elements (current_entities st1)
  ≡ₚ ["abc_1_hyperion_switch_BOBLIGHTSERVER"; "abc_1_hyperion_switch_GRABBER";
      "abc_1_hyperion_switch_V4L"; "abc_1_hyperion_switch_LEDDEVICE"].
Proof. apply (bool_decide_unpack _). vm_compute. exact I. Qed.

(** The instance stops: the next update removes nothing. *)
Example stopped_instance_keeps_entities :
  let st1 := (diff [instance_1] (a_state (a_world [] false true PNone))).2 in
  let st2 :=
    instances_updated config_entry host port token
      [Some {[ "data" := [instance_1_stopped] ]}] st1 in
  current_entities st2 = current_entities st1
  ∧ events_since st1 st2 = [EvGetRegistry; EvAddEntities []].
Proof. split; vm_compute; reflexivity. Qed.

(** One failed connection: three switches are created, the fourth on the
    next update. *)
Example failed_then_retried :
  let st1 := (diff [instance_1] (a_state (a_world [false] false true PNone))).2 in
  let st2 := (diff [instance_1] st1).2 in
  bool_decide ("abc_1_hyperion_switch_BOBLIGHTSERVER" ∈ current_entities st1)
  = false
  ∧ size (current_entities st1) = 3
  ∧ bool_decide ("abc_1_hyperion_switch_BOBLIGHTSERVER" ∈ current_entities st2)
    = true
  ∧ size (current_entities st2) = 4.
Proof. repeat split; vm_compute; reflexivity. Qed.

Lemma second_diff_creates_nothing_witness :
  let st := a_state (a_world [] false true (PStr "abc")) in
  let st1 := (diff [instance_1] st).2 in
  current_entities st = ∅
  ∧ Forall (λ ev, connect_failed ev = false) (events_since st st1)
  ∧ diff [instance_1] st1
    = (Normal tt,
       {| world := world st1;
          trace := trace st1 ++ [EvGetRegistry; EvAddEntities []];
          current_entities := current_entities st1 |}).
Proof.
  intros st st1.
  assert (Forall (λ ev, connect_failed ev = false) (events_since st st1))
    as Hok by (apply (bool_decide_unpack _); vm_compute; exact I).
  split; [reflexivity|]. split; [exact Hok|].
  apply (second_diff_creates_nothing config_entry host port token
           [instance_1] st (diff [instance_1] st).1 st1);
    [reflexivity|by destruct (diff [instance_1] st)|exact Hok].
Defined.

Lemma switch_unique_id_injective_witness :
  (1%Z, "V4L") ≠ (2%Z, "V4L")
  ∧ switch_unique_id config_entry (PInt 1) "V4L"
    ≠ switch_unique_id config_entry (PInt 2) "V4L".
Proof.
  assert ((1%Z, "V4L") ≠ (2%Z, "V4L")) as Hne by discriminate.
  split; [exact Hne|].
  exact (switch_unique_id_injective config_entry 1 2 "V4L" "V4L" Hne).
Defined.



Lemma handler_and_loop_skip_witness :
  let st := a_state (a_world [] false true PNone) in
  async_instances_to_entities config_entry host port token None st
  = (Normal tt, st)
  ∧ diff [instance_1; instance_no_id] st = diff [instance_1] st.
Proof.
  intros st.
  destruct (handler_and_loop_skip config_entry host port token)
    as [Hhandler Hloop].
  split.
  - apply Hhandler. by left.
  - apply (Hloop instance_no_id {| entities_to_add := [];
                                  desired_unique_ids := ∅ |} st
             [instance_1] []).
    left. reflexivity.
Defined.

Lemma turn_on_calls_witness :
  let st_on := a_state (a_world [] true true PNone) in
  let st_off := a_state (a_world [] false true PNone) in
  async_turn_on a_switch st_on = (Normal tt, st_on)
  ∧ ∃ ok w,
      send_set_component (world st_off) 3 "LEDDEVICE" true = (ok, w)
      ∧ async_turn_on a_switch st_off
        = (Normal tt,
           {| world := w;
              trace := [EvSetComponent 3 "LEDDEVICE" true ok];
              current_entities := ∅ |}).
Proof.
  intros st_on st_off. split.
  - apply (turn_on_calls a_switch st_on). reflexivity.
  - apply (turn_on_calls a_switch st_off). reflexivity.
Defined.

Lemma command_failure_is_silent_witness :
  let st := a_state (a_world [] false false PNone) in
  async_turn_off a_switch st
  = (Normal tt,
     {| world := world st;
        trace := [EvSetComponent 3 "LEDDEVICE" false false];
        current_entities := ∅ |})
  ∧ async_turn_on a_switch st
    = (Normal tt,
       {| world := world st;
          trace := [EvSetComponent 3 "LEDDEVICE" true false];
          current_entities := ∅ |}).
Proof.
  intros st. split.
  - exact (proj1 (command_failure_is_silent a_switch st (world st)) eq_refl).
  - exact (proj2 (command_failure_is_silent a_switch st (world st)) eq_refl).
Defined.

(** C9 as stated fails without the host key: the connection would succeed
    and the server id is truthy, yet [config[CONF_HOST]] raises [KeyError]
    before any connection is attempted. *)
Lemma setup_platform_key_error :
  let config : gmap string pyval := {[ "port" := port ]} in
  let st := a_state (a_world [] false true (PStr "abc")) in
  (∃ c, (create_connect (world st) host port None None).1 = Some c
        ∧ truthy (sysinfo_id (world st) c).1 = true)
  ∧ async_setup_platform config st = (Raise (KeyError "host"), st).
Proof. split; [by exists 0|reflexivity]. Qed.

Lemma setup_platform_not_ready_witness :
  let config := ConfigEntry.data config_entry in
  let ready := a_state (a_world [] false true (PStr "abc")) in
  let no_id := a_state (a_world [] false true PNone) in
  let no_client := a_state (a_world [false] false true (PStr "abc")) in
  config !! CONF_HOST = Some host
  ∧ config !! CONF_PORT = Some port
  ∧ (async_setup_platform config ready).1 = Normal tt
  ∧ (async_setup_platform config no_id).1 = Raise PlatformNotReady
  ∧ (async_setup_platform config no_client).1 = Raise PlatformNotReady.
Proof.
  intros config ready no_id no_client.
  assert (config !! CONF_HOST = Some host) as Hhost by reflexivity.
  assert (config !! CONF_PORT = Some port) as Hport by reflexivity.
  split; [exact Hhost|]. split; [exact Hport|].
  split; [|split].
  - destruct (setup_platform_not_ready config host port ready Hhost Hport)
      as (c & w & [= <- <-] & (id & w' & [= <- <-] & ->)). reflexivity.
  - destruct (setup_platform_not_ready config host port no_id Hhost Hport)
      as (c & w & [= <- <-] & (id & w' & [= <- <-] & ->)). reflexivity.
  - destruct (setup_platform_not_ready config host port no_client Hhost Hport)
      as (c & w & [= <- <-] & ->). reflexivity.
Defined.

(** ** The further properties in the scripted setting *)

Lemma created_entities_wellformed_witness :
  let st := a_state (a_world [false] false true PNone) in
  let st1 := (diff [instance_1] st).2 in
  let e := {| _unique_id := "abc_1_hyperion_switch_GRABBER";
              _name := "GRABBER"; _options := ∅; _client := 0 |} in
  e ∈ created (events_since st st1)
  ∧ name e ∈ components
  ∧ unique_id e ∈ current_entities st1.
Proof.
  intros st st1 e.
  assert (e ∈ created (events_since st st1)) as He.
  { apply list_elem_of_In. vm_compute. left. reflexivity. }
  split; [exact He|].
  destruct (created_entities_wellformed config_entry host port token
              [instance_1] st (diff [instance_1] st).1 st1 e)
    as (Hname & _ & _ & _ & Hknown);
    [by destruct (diff [instance_1] st)|exact He|].
  split; [exact Hname|exact Hknown].
Defined.

Lemma rerun_retries_only_failures_witness :
  let st := a_state (a_world [false; true; false] false true PNone) in
  let st1 := (diff [instance_1] st).2 in
  current_entities st1 ⊆ current_entities st1
  ∧ length (List.filter is_connect (events_since st1 (diff [instance_1] st1).2))
    ≤ length (List.filter connect_failed (events_since st st1)).
Proof.
  intros st st1.
  assert (current_entities st1 ⊆ current_entities st1) as Hsub by done.
  split; [exact Hsub|].
  exact (rerun_retries_only_failures config_entry host port token
           [instance_1] st st1 Hsub).
Defined.

Lemma nothing_running_nothing_done_witness :
  let st := a_state (a_world [] false true PNone) in
  Forall (λ instance, skipped instance = true) [instance_1_stopped; instance_no_id]
  ∧ diff [instance_1_stopped; instance_no_id] st
    = (Normal tt,
       {| world := world st;
          trace := trace st ++ [EvGetRegistry; EvAddEntities []];
          current_entities := current_entities st |}).
Proof.
  intros st.
  assert (Forall (λ instance, skipped instance = true)
            [instance_1_stopped; instance_no_id]) as Hall
    by (repeat constructor).
  split; [exact Hall|].
  exact (nothing_running_nothing_done config_entry host port token
           [instance_1_stopped; instance_no_id] st Hall).
Defined.

(** Setup with one identifier left over from before, one failed connection,
    then two updates: the instance running, the instance stopped. *)
Lemma setup_entry_lifetime_witness :
  let st : @State World nat :=
    {| world := a_world [false] false true PNone;
       trace := [EvGetRegistry; EvAddEntities []];
       current_entities := {["stale"]} |} in
  let events : list (option Response) :=
    [Some {[ "data" := [instance_1] ]};
     Some {[ "data" := [instance_1_stopped] ]}] in
  let st1 :=
    (async_setup_entry (collaborators := collaborators_with_root)
       config_entry st).2 in
  let st2 :=
    instances_updated (collaborators := collaborators_with_root)
      config_entry host port PNone events st1 in
  ConfigEntry.data config_entry !! CONF_HOST = Some host
  ∧ ConfigEntry.data config_entry !! CONF_PORT = Some port
  ∧ (async_setup_entry (collaborators := collaborators_with_root)
       config_entry st).1 = Normal true
  ∧ consistent 2 st1
  ∧ consistent 2 st2.
Proof.
  intros st events st1 st2.
  assert (ConfigEntry.data config_entry !! CONF_HOST = Some host) as Hhost
    by reflexivity.
  assert (ConfigEntry.data config_entry !! CONF_PORT = Some port) as Hport
    by reflexivity.
  split; [exact Hhost|]. split; [exact Hport|].
  destruct (setup_entry_lifetime (collaborators := collaborators_with_root)
              config_entry host port events st Hhost Hport)
    as (Hr & _ & Hc1 & Hc2).
  split; [exact Hr|]. split; [exact Hc1|exact Hc2].
Defined.

Lemma setup_entry_missing_key_witness :
  let st := a_state (a_world [] false true PNone) in
  async_setup_entry config_entry_no_host st = (Raise (KeyError "host"), st).
Proof.
  intros st.
  exact (proj1 (setup_entry_missing_key config_entry_no_host st) eq_refl).
Defined.

Lemma setup_platform_missing_key_witness :
  let st := a_state (a_world [] false true PNone) in
  async_setup_platform {[ "host" := host ]} st = (Raise (KeyError "port"), st).
Proof.
  intros st.
  assert (is_Some (({[ "host" := host ]} : gmap string pyval) !! CONF_HOST))
    as Hhost by (by exists host).
  exact (proj2 (setup_platform_missing_key {[ "host" := host ]} st)
           Hhost eq_refl).
Defined.

End ScriptedRuns.
